(** * pygraphy: schema type registration, root validation and execution

    A shallow embedding of [src/pygraphy/types/schema.py]:
    [SchemaType.register_fields_type], [SchemaType.register_types],
    [SchemaType.validate] and [Schema.execute]. *)

From Stdlib Require Import String List Bool Arith Lia.
Import ListNotations.

Set Warnings "-register-all".

(** ** Type annotations and type descriptors *)

Module Types.

(** A Python type annotation, as the registrar sees it.  A class is known by
    its identity ([TClass c]); the class may be a declared descriptor (Object,
    Union, Input, Interface, Enum) or any other class such as [str] or [int].
    [typing.Union[...]] (and so [Optional[X] = Union[X, None]]) and
    [typing.List[X]] are the structural wrappers, with their [__args__]. *)
Inductive ty : Type :=
| TClass (c : nat)
| TNone
| TUnionOf (args : list ty)
| TListOf (arg : ty).

Fixpoint ty_eq_dec (a b : ty) {struct a} : {a = b} + {a <> b}.
Proof.
  decide equality; [apply Nat.eq_dec | apply (list_eq_dec ty_eq_dec)].
Defined.

(** Induction over annotations, through the arguments of a [Union]. *)
Fixpoint ty_ind' (P : ty -> Prop) (HC : forall c, P (TClass c)) (HN : P TNone)
    (HU : forall args, Forall P args -> P (TUnionOf args))
    (HL : forall a, P a -> P (TListOf a)) (t : ty) {struct t} : P t :=
  match t with
  | TClass c => HC c
  | TNone => HN
  | TUnionOf args =>
      HU args ((fix go (l : list ty) : Forall P l :=
                  match l with
                  | [] => @Forall_nil _ P
                  | a :: l' => @Forall_cons _ P a l' (ty_ind' P HC HN HU HL a) (go l')
                  end) args)
  | TListOf a => HL a (ty_ind' P HC HN HU HL a)
  end.

(** Python's [==] on annotations: a class equals only itself (identity);
    [List[X] == List[Y]] compares the arguments; two [typing.Union]s are
    equal when they have the same set of arguments, in any order
    ([Optional[X] == Union[None, X]]). *)
Fixpoint ty_eqb (a b : ty) {struct a} : bool :=
  match a, b with
  | TClass c, TClass d => Nat.eqb c d
  | TNone, TNone => true
  | TUnionOf xs, TUnionOf ys =>
      forallb (fun x => existsb (ty_eqb x) ys) xs &&
      forallb (fun y => existsb (fun x => ty_eqb x y) xs) ys
  | TListOf x, TListOf y => ty_eqb x y
  | _, _ => false
  end.

(** Python's [x in l] on a list: some element is [==] to [x]. *)
Definition mem (x : ty) (l : list ty) : bool := existsb (ty_eqb x) l.

(** [Field] and its subclass [ResolverField], which also owns [params]. *)
Inductive field : Type :=
| Field (ftype : ty)
| ResolverField (ftype : ty) (params : list (string * ty)).

Definition ftype (f : field) : ty :=
  match f with Field t => t | ResolverField t _ => t end.

(** What a declared class is, by its metaclass ([ObjectType], [UnionType],
    [InputType], [InterfaceType], [EnumType]), or a plain class. An
    interface also carries its [__subclasses__()]. *)
Inductive kind : Type :=
| KObject (fields : list (string * field))
| KUnion (members : list ty)
| KInput (fields : list (string * field))
| KInterface (fields : list (string * field)) (subclasses : list ty)
| KEnum
| KScalar.

(** The declared classes of a program; a class outside the list is a plain
    class ([str], [int], ...). *)
Definition graph := list kind.

Definition kind_of (g : graph) (c : nat) : kind := nth c g KScalar.

(** Modelled from the spec: [pygraphy.utils.is_union] and
    [pygraphy.utils.is_list] (the module is not in the repository's files):
    the annotation is a [typing.Union[...]], resp. a [typing.List[...]]. *)
Definition is_union (t : ty) : bool :=
  match t with TUnionOf _ => true | _ => false end.

Definition is_list (t : ty) : bool :=
  match t with TListOf _ => true | _ => false end.

(** Modelled from the spec: [pygraphy.utils.is_optional] (not in the
    repository's files): an "optional-wrapped" annotation, a
    [typing.Union] of [NoneType] and one inner type argument
    ([Optional[X]] is [Union[X, None]]). *)
Definition is_optional (t : ty) : bool :=
  match t with
  | TUnionOf args => mem TNone args && Nat.eqb (length args) 2
  | _ => false
  end.

(** [t.__args__], for a wrapper. *)
Definition type_args (t : ty) : list ty :=
  match t with TUnionOf args => args | TListOf a => [a] | _ => [] end.

(** [isinstance(t, ObjectType)]. *)
Definition is_object_type (g : graph) (t : ty) : bool :=
  match t with
  | TClass c => match kind_of g c with KObject _ => true | _ => false end
  | _ => false
  end.

End Types.
Import Types.

(** ** The registrar: [SchemaType.register_fields_type] / [register_types] *)

Module Registrar.

(** The two lists the schema class owns. *)
Record state : Type := mk_state {
  validated_type : list ty;
  registered_type : list ty
}.

Definition empty_state : state := mk_state [] [].

(** [cls.validated_type.append(ptype)] *)
Definition mark_validated (t : ty) (st : state) : state :=
  mk_state (validated_type st ++ [t]) (registered_type st).

(** [cls.registered_type.append(ptype)] *)
Definition push_registered (t : ty) (st : state) : state :=
  mk_state (validated_type st) (registered_type st ++ [t]).

(** The frontier of [register_fields_type]: each field's [ftype], followed,
    for a [ResolverField], by its [params.values()]. *)
Definition param_return_types (fields : list (string * field)) : list ty :=
  flat_map (fun nf => match snd nf with
                      | Field t => [t]
                      | ResolverField t params => t :: map snd params
                      end) fields.

Notation "x <- m ;; k" := (match m with Some x => k | None => None end)
  (at level 61, m at next level, right associativity).

(** [register_fields_type], given the [register_types] it calls. *)
Definition register_fields_type (register_types : list ty -> state -> option state)
    (fields : list (string * field)) (st : state) : option state :=
  register_types (param_return_types fields) st.

(** The body of the [for] loop of [register_types] after the visited check
    and [validated_type.append]: the [if/elif] chain on [ptype]. *)
Definition visit (register_types : list ty -> state -> option state)
    (g : graph) (ptype : ty) (st : state) : option state :=
  match ptype with
  | TClass c =>
      match kind_of g c with
      | KObject fs =>
          register_fields_type register_types fs (push_registered ptype st)
      | KUnion members =>
          register_types members (push_registered ptype st)
      | KInput fs =>
          register_fields_type register_types fs (push_registered ptype st)
      | KInterface fs subclasses =>
          st1 <- register_fields_type register_types fs (push_registered ptype st) ;;
          register_types subclasses st1
      | KEnum => Some (push_registered ptype st)
      | KScalar => Some st
      end
  | TUnionOf _ | TListOf _ => register_types (type_args ptype) st
  | TNone => Some st
  end.

(** The [for ptype in types] loop of [register_types]. *)
Fixpoint register_loop (register_types : list ty -> state -> option state)
    (g : graph) (types : list ty) (st : state) : option state :=
  match types with
  | [] => Some st
  | ptype :: rest =>
      if mem ptype (validated_type st) then register_loop register_types g rest st
      else
        st1 <- visit register_types g ptype (mark_validated ptype st) ;;
        register_loop register_types g rest st1
  end.

(** [register_types]; [fuel] bounds the depth of the recursion ([None] when
    it runs out), and the termination theorem shows a bound always exists. *)
Fixpoint register_types (fuel : nat) (g : graph) (types : list ty) (st : state)
    : option state :=
  match fuel with
  | O => None
  | S fuel' => register_loop (register_types fuel' g) g types st
  end.

(** All annotations a type occurs in, itself included. *)
Fixpoint subterms (t : ty) : list ty :=
  t :: match t with
       | TClass _ | TNone => []
       | TUnionOf args => (fix go (l : list ty) : list ty :=
                             match l with [] => [] | a :: l' => subterms a ++ go l' end) args
       | TListOf a => subterms a
       end.

(** The types [register_types] may visit from [ptype]. *)
Definition kind_children (k : kind) : list ty :=
  match k with
  | KObject fs | KInput fs => param_return_types fs
  | KUnion members => members
  | KInterface fs subclasses => param_return_types fs ++ subclasses
  | KEnum | KScalar => []
  end.

Definition children (g : graph) (t : ty) : list ty :=
  match t with
  | TClass c => kind_children (kind_of g c)
  | _ => type_args t
  end.

(** Every annotation the graph and the start list mention. *)
Definition universe (g : graph) (start : list ty) : list ty :=
  flat_map subterms (start ++ flat_map kind_children g).

(** The depth bound used for a schema. *)
Definition fuel_bound (g : graph) (start : list ty) : nat :=
  S (length (universe g start)).

(** [SchemaType.__new__], after [validate()]:
    [cls.register_fields_type(cls.__fields__.values())] on fresh lists. *)
Definition register_schema (g : graph) (root_fields : list (string * field))
    : option state :=
  register_fields_type
    (register_types (fuel_bound g (param_return_types root_fields)) g)
    root_fields empty_state.

(** A registered type: a class declared as Object, Union, Input, Interface
    or Enum. *)
Definition is_named (g : graph) (t : ty) : bool :=
  match t with
  | TClass c => match kind_of g c with KScalar => false | _ => true end
  | _ => false
  end.

(** The calls [visit] makes, in order: for an Interface its fields' types,
    then its subclasses; for a wrapper its [__args__]. *)
Definition blocks (g : graph) (ptype : ty) : list (list ty) :=
  match ptype with
  | TClass c =>
      match kind_of g c with
      | KObject fs | KInput fs => [param_return_types fs]
      | KUnion members => [members]
      | KInterface fs subclasses => [param_return_types fs; subclasses]
      | KEnum | KScalar => []
      end
  | TUnionOf _ | TListOf _ => [type_args ptype]
  | TNone => []
  end.

Fixpoint run_seq (register_types : list ty -> state -> option state)
    (bs : list (list ty)) (st : state) : option state :=
  match bs with
  | [] => Some st
  | b :: bs' => st1 <- register_types b st ;; run_seq register_types bs' st1
  end.

(** Reachability from a list of annotations, along [children]. *)
Inductive reach (g : graph) (start : list ty) : ty -> Prop :=
| reach_start t : In t start -> reach g start t
| reach_step t u : reach g start t -> In u (children g t) -> reach g start u.

(** [t] is [X] under [List[...]] and [Union[...]] / [Optional[...]] wrappers. *)
Inductive wraps : ty -> ty -> Prop :=
| wraps_self x : wraps x x
| wraps_list a x : wraps a x -> wraps (TListOf a) x
| wraps_union args a x : In a args -> wraps a x -> wraps (TUnionOf args) x.

(** The declared fields of a class ([__fields__]). *)
Definition kind_fields (k : kind) : list (string * field) :=
  match k with
  | KObject fs | KInput fs | KInterface fs _ => fs
  | KUnion _ | KEnum | KScalar => []
  end.

End Registrar.
Import Registrar.

(** ** Root validation: [SchemaType.validate] *)

Module Validation.

(** A value of the schema's [__fields__]: a [Field] (or [ResolverField]), or
    something that is not a [Field]. *)
Inductive root_entry : Type :=
| RootField (f : field)
| RootOther.

(** The exceptions [validate] raises, with the reason the message gives. *)
Inductive validate_error : Type :=
| InvalidRootName (name : string)    (* not in VALID_ROOT_TYPES *)
| InvalidFieldType                   (* not isinstance(field, Field) *)
| RootNotOptional                    (* not is_optional(field.ftype) *)
| RootNotObject (t : ty)             (* __args__[0] not an ObjectType *)
| ObjectValidationError.             (* raised by ObjectType.validate *)

Definition VALID_ROOT_TYPES : list string := ["query"; "mutation"]%string.

Definition mem_name (n : string) (l : list string) : bool :=
  if in_dec string_dec n l then true else false.

(** The checks of one iteration of the [for name, field] loop; [None] when
    the field passes. *)
Definition check_root_field (g : graph) (nf : string * root_entry)
    : option validate_error :=
  let (name, entry) := nf in
  if negb (mem_name name VALID_ROOT_TYPES) then Some (InvalidRootName name)
  else match entry with
       | RootOther => Some InvalidFieldType
       | RootField f =>
           if negb (is_optional (ftype f)) then Some RootNotOptional
           else match type_args (ftype f) with
                | a :: _ => if is_object_type g a then None
                            else Some (RootNotObject (ftype f))
                | [] => Some (RootNotObject (ftype f))  (* unreachable: is_optional needs an argument *)
                end
       end.

(** The root-shape loop: the first failing field raises. *)
Fixpoint check_root_fields (g : graph) (fields : list (string * root_entry))
    : option validate_error :=
  match fields with
  | [] => None
  | nf :: rest =>
      match check_root_field g nf with
      | Some e => Some e
      | None => check_root_fields g rest
      end
  end.

(** [SchemaType.validate]: the root-shape loop, then
    [ObjectType.validate(cls)], whose outcome is [object_validate]. *)
Definition validate (g : graph) (fields : list (string * root_entry))
    (object_validate : option validate_error) : option validate_error :=
  match check_root_fields g fields with
  | Some e => Some e
  | None => object_validate
  end.

(** The root shape the checks of [validate] accept: the name is [query] or
    [mutation], the value is a [Field], [is_optional] holds of its type,
    and [__args__[0]] is an Object type. *)
Definition root_shape_ok (g : graph) (nf : string * root_entry) : Prop :=
  In (fst nf) VALID_ROOT_TYPES /\
  exists f, snd nf = RootField f /\ is_optional (ftype f) = true /\
    exists a rest, type_args (ftype f) = a :: rest /\ is_object_type g a = true.

(** Modelled from the spec: the inner type argument of an optional wrapper,
    a [Union] of [NoneType] and one inner type, in either order
    ([Optional[X] == Union[None, X]]). *)
Definition optional_inner (t : ty) : option ty :=
  match t with
  | TUnionOf [a; TNone] => Some a
  | TUnionOf [TNone; a] => Some a
  | _ => None
  end.

(** The root shape the spec describes: the name is [query] or [mutation],
    the value is a [Field], and its type is optional-wrapping an Object
    type. *)
Definition root_shape_spec (g : graph) (nf : string * root_entry) : Prop :=
  In (fst nf) VALID_ROOT_TYPES /\
  exists f, snd nf = RootField f /\
    exists x, optional_inner (ftype f) = Some x /\ is_object_type g x = true.

End Validation.
Import Validation.

(** ** Schema construction: [SchemaType.__new__] *)

Module Construction.

(** How [SchemaType.__new__] can fail. *)
Inductive construct_error : Type :=
| SchemaInvalid (e : validate_error)   (* raised by cls.validate() *)
| FieldAttributeError                  (* field.ftype on a value that is not a Field *)
| DepthBound.                          (* the model's recursion bound is exceeded *)

(** [cls.__fields__.values()] as [register_fields_type] reads them:
    [field.ftype] fails on a value that is not a [Field], and the whole
    frontier is built before [register_types] runs. *)
Fixpoint root_values (fields : list (string * root_entry))
    : option (list (string * field)) :=
  match fields with
  | [] => Some []
  | (n, RootField f) :: rest => option_map (cons (n, f)) (root_values rest)
  | (_, RootOther) :: _ => None
  end.

(** [SchemaType.__new__]: fresh [registered_type] and [validated_type],
    [cls.validate()], then [cls.register_fields_type(cls.__fields__.values())];
    the class returned shares the [registered_type] list. *)
Definition schema_new (g : graph) (fields : list (string * root_entry))
    (object_validate : option validate_error) : construct_error + state :=
  match validate g fields object_validate with
  | Some e => inl (SchemaInvalid e)
  | None =>
      match root_values fields with
      | None => inl FieldAttributeError
      | Some fs =>
          match register_schema g fs with
          | Some st => inr st
          | None => inl DepthBound
          end
      end
  end.

End Construction.
Import Construction.

(** ** Execution: [Schema.execute] *)

Module Execution.

Inductive operation_type : Type := QUERY | MUTATION | SUBSCRIPTION.

Section Execute.

(** Collaborators outside the module: the parser, the root object's
    [__resolve__], the root classes' constructors and the JSON encoder. *)
Context {selection : Type}.       (* a node of a selection set *)
Context {exn : Type}.             (* an instance of [Exception] *)
Context {value : Type}.           (* a Python object *)
Context {parse_error : Type}.     (* a [GraphQLSyntaxError] *)
Context {request variables : Type}.

(** A top-level definition of a parsed document. *)
Inductive definition : Type :=
| OperationDefinitionNode (operation : operation_type) (selections : list selection)
| OtherDefinition.               (* a fragment or any other definition *)

(** What [await obj.__resolve__(selections, error_collector)] does: it
    returns a value, or an [Exception] escapes it; in both cases with the
    error collector as it left it.  When it raises, [obj_after] is the root
    instance [obj] as the resolution left it (the name [obj] is not
    rebound).  A [BaseException] that is not an [Exception]
    ([KeyboardInterrupt], [asyncio.CancelledError]) is not modelled: the
    [except Exception] does not catch it, and it leaves [execute] with the
    context still set. *)
Inductive resolution : Type :=
| Resolved (v : value) (collector : list exn)
| ResolveRaised (e : exn) (obj_after : value) (collector : list exn).

Variable parse : string -> list definition + parse_error.
Variable instantiate : ty -> value.                (* ftype.__args__[0]() *)
Variable resolve : value -> list selection -> list exn -> resolution.

(** The dict [return_root]. *)
Record envelope : Type := mk_envelope {
  errors : option (list exn);
  data : value
}.

Variable encode : envelope -> string.   (* json.dumps(.., cls=GraphQLEncoder) *)

Record context_value : Type := Context {
  root_ast : list definition;
  ctx_request : request;
  ctx_variables : variables
}.

(** The writes to the context variable, in order. *)
Inductive context_event : Type :=
| ContextSet (c : context_value)
| ContextReset.

(** Exceptions that leave [execute]. *)
Inductive exec_error : Type :=
| SyntaxError (p : parse_error)
| KeyError (key : string)                  (* cls.__fields__[name] *)
| IndexError                                (* __args__[0] of an empty Union *)
| FieldMapKeyError (op : operation_type)   (* cls.FIELD_MAP[op] *)
| AttributeError.

(** The end of a call: a returned value ([None] is Python's [None]) or an
    exception. *)
Inductive outcome : Type :=
| Return (r : option (string * bool))
| Raise (e : exec_error).

Definition FIELD_MAP (op : operation_type) : option string :=
  match op with
  | QUERY => Some "query"%string
  | MUTATION => Some "mutation"%string
  | SUBSCRIPTION => None
  end.

(** [d[key]] on the schema's [__fields__]. *)
Fixpoint dict_get {A : Type} (key : string) (d : list (string * A)) : option A :=
  match d with
  | [] => None
  | (k, v) :: rest => if string_dec key k then Some v else dict_get key rest
  end.

Definition is_query_or_mutation (op : operation_type) : bool :=
  match op with QUERY | MUTATION => true | SUBSCRIPTION => false end.

(** [.ftype.__args__[0]] of a root entry. *)
Definition root_class (entry : root_entry) : exec_error + ty :=
  match entry with
  | RootOther => inl AttributeError
  | RootField f =>
      match ftype f with
      | TUnionOf (a :: _) => inr a
      | TUnionOf [] => inl IndexError
      | TListOf a => inr a
      | _ => inl AttributeError
      end
  end.

(** The body of the [if] for a query or mutation definition. *)
Definition run_operation (fields : list (string * root_entry))
    (document : list definition) (op : operation_type)
    (selections : list selection) (req : request) (vars : variables)
    : outcome * list context_event :=
  match FIELD_MAP op with
  | None => (Raise (FieldMapKeyError op), [])
  | Some name =>
      match dict_get name fields with
      | None => (Raise (KeyError name), [])
      | Some entry =>
          match root_class entry with
          | inl e => (Raise e, [])
          | inr cls_arg =>
              let obj := instantiate cls_arg in
              let error_collector : list exn := [] in
              let token := Context document req vars in
              let '(obj, error_collector) :=
                match resolve obj selections error_collector with
                | Resolved v collector => (v, collector)
                | ResolveRaised e obj_after collector => (obj_after, collector ++ [e])
                end in
              let return_root :=
                mk_envelope (match error_collector with [] => None | _ => Some error_collector end) obj in
              let success := match error_collector with [] => true | _ => false end in
              (Return (Some (encode return_root, success)), [ContextSet token; ContextReset])
          end
      end
  end.

(** The [for definition in document.definitions] loop. *)
Fixpoint execute_loop (fields : list (string * root_entry)) (document : list definition)
    (defs : list definition) (req : request) (vars : variables)
    : outcome * list context_event :=
  match defs with
  | [] => (Return None, [])
  | OtherDefinition :: rest => execute_loop fields document rest req vars
  | OperationDefinitionNode op selections :: rest =>
      if is_query_or_mutation op
      then run_operation fields document op selections req vars
      else execute_loop fields document rest req vars
  end.

(** A definition the [if]s of the loop select: a query or mutation. *)
Definition qualifies (d : definition) : bool :=
  match d with
  | OperationDefinitionNode op _ => is_query_or_mutation op
  | OtherDefinition => false
  end.

(** The error list and the value of [obj] once resolution has ended. *)
Definition collected (r : resolution) : list exn :=
  match r with
  | Resolved _ collector => collector
  | ResolveRaised e _ collector => collector ++ [e]
  end.

Definition produced (r : resolution) : value :=
  match r with
  | Resolved v _ => v
  | ResolveRaised _ obj_after _ => obj_after
  end.

(** [Schema.execute(query, variables, request)]. *)
Definition execute (fields : list (string * root_entry)) (query : string)
    (vars : variables) (req : request) : outcome * list context_event :=
  match parse query with
  | inr p => (Raise (SyntaxError p), [])
  | inl document => execute_loop fields document document req vars
  end.

End Execute.

End Execution.
Import Execution.


(** ** Sample programs *)

Module Samples.
Local Open Scope string_scope.

(** 0: Object Query { me: Optional[User];
                      search(kind: Color): List[Optional[Node]] }
    1: Object User { friends: List[User]; tag: Color }  (refers to itself)
    2: Interface Node { id: str }, implemented by User and Post
    3: Object Post { author: User }
    4: Enum Color
    100 is [str]. *)
Definition g1 : graph :=
  [ KObject [("me", Field (TUnionOf [TClass 1; TNone]));
             ("search", ResolverField (TListOf (TUnionOf [TClass 2; TNone]))
                                      [("kind", TClass 4)])];
    KObject [("friends", Field (TListOf (TClass 1))); ("tag", Field (TClass 4))];
    KInterface [("id", Field (TClass 100))] [TClass 1; TClass 3];
    KObject [("author", Field (TClass 1))];
    KEnum ].

Definition root1 : list (string * field) :=
  [("query", Field (TUnionOf [TClass 0; TNone]))].

(** 0: Object Query { colors: List[Optional[Color]] }; 1: Enum Color. *)
Definition g2 : graph :=
  [ KObject [("colors", Field (TListOf (TUnionOf [TClass 1; TNone])))];
    KEnum ].

Definition root2 : list (string * field) :=
  [("query", Field (TUnionOf [TClass 0; TNone]))].

(** 0: Object Query { a: Optional[Color]; b: Union[None, Color] };
    1: Enum Color.  The two field types are [==]. *)
Definition g3 : graph :=
  [ KObject [("a", Field (TUnionOf [TClass 1; TNone]));
             ("b", Field (TUnionOf [TNone; TClass 1]))];
    KEnum ].

(** The lists after registering [Optional[Color]] of [g1]. *)
Definition st_color : state :=
  mk_state [TUnionOf [TClass 4; TNone]; TClass 4; TNone] [TClass 4].

(** ... and then [Union[None, Color]] and [Post]. *)
Definition st_color_post : state :=
  mk_state [TUnionOf [TClass 4; TNone]; TClass 4; TNone; TClass 3; TClass 1; TListOf (TClass 1)]
           [TClass 4; TClass 3; TClass 1].

(** A request: a fragment, then a query, then a mutation. *)
Definition doc1 : list (@definition unit) :=
  [OtherDefinition; OperationDefinitionNode QUERY [tt];
   OperationDefinitionNode MUTATION []].

Definition parse1 (q : string) : list (@definition unit) + unit := inl doc1.

(** A request with a fragment and a subscription only. *)
Definition parse2 (q : string) : list (@definition unit) + unit :=
  inl [OtherDefinition; OperationDefinitionNode SUBSCRIPTION [tt]].

(** A request with a mutation only. *)
Definition parse3 (q : string) : list (@definition unit) + unit :=
  inl [OperationDefinitionNode MUTATION [tt]].

(** A root with a [query] field only. *)
Definition schema_fields1 : list (string * root_entry) :=
  [("query", RootField (Field (TUnionOf [TClass 0; TNone])))].

Definition instantiate1 (t : ty) : nat := 0.

(** A resolution that returns [42] with no error, and one that records
    the error [3] and then raises [7], leaving the root instance as [1]. *)
Definition resolve_ok (o : nat) (sels : list unit) (c : list nat)
  : @resolution nat nat := Resolved 42 c.

Definition resolve_raises (o : nat) (sels : list unit) (c : list nat)
  : @resolution nat nat := ResolveRaised 7 1 (c ++ [3]).

Definition encode1 (env : @envelope nat nat) : string := "{}".

End Samples.
Import Samples.

(** ** Facts about the registrar *)

Module RegistrarFacts.

(** *** Python's [==] on annotations *)

Lemma union_eqb xs ys :
  ty_eqb (TUnionOf xs) (TUnionOf ys) = true <->
  (forall x, In x xs -> exists y, In y ys /\ ty_eqb x y = true) /\
  (forall y, In y ys -> exists x, In x xs /\ ty_eqb x y = true).
Proof.
  simpl; rewrite andb_true_iff, !forallb_forall.
  split; intros [H1 H2]; split; intros z Hz;
    first [apply existsb_exists, H1, Hz | apply existsb_exists, H2, Hz
          | apply H1 in Hz; apply existsb_exists, Hz
          | apply H2 in Hz; apply existsb_exists, Hz].
Qed.

Lemma ty_eqb_refl t : ty_eqb t t = true.
Proof.
  induction t as [c| |args IH|a IH] using ty_ind'; simpl.
  - apply Nat.eqb_refl.
  - reflexivity.
  - apply union_eqb; rewrite Forall_forall in IH.
    split; intros x Hx; exists x; split; auto.
  - exact IH.
Qed.

Lemma ty_eqb_sym a b : ty_eqb a b = true -> ty_eqb b a = true.
Proof.
  revert b; induction a as [c| |xs IH|a IH] using ty_ind';
    intros [d| |ys|b'] H; simpl in *; try discriminate.
  - apply Nat.eqb_eq in H; subst; apply Nat.eqb_refl.
  - reflexivity.
  - rewrite Forall_forall in IH.
    apply union_eqb in H as [H1 H2]; apply union_eqb; split.
    + intros y Hy; destruct (H2 y Hy) as [x [Hx Hxy]]; exists x; split; auto.
    + intros x Hx; destruct (H1 x Hx) as [y [Hy Hxy]]; exists y; split; auto.
  - apply IH, H.
Qed.

Lemma ty_eqb_trans a b c : ty_eqb a b = true -> ty_eqb b c = true -> ty_eqb a c = true.
Proof.
  revert b c; induction a as [n| |xs IH|a IH] using ty_ind';
    intros [m| |ys|b'] [k| |zs|c'] H1 H2; simpl in *; try discriminate.
  - apply Nat.eqb_eq in H1, H2; subst; apply Nat.eqb_refl.
  - reflexivity.
  - rewrite Forall_forall in IH.
    apply union_eqb in H1 as [A1 A2]; apply union_eqb in H2 as [B1 B2].
    apply union_eqb; split.
    + intros x Hx; destruct (A1 x Hx) as [y [Hy Hxy]].
      destruct (B1 y Hy) as [z [Hz Hyz]]; exists z; split; eauto.
    + intros z Hz; destruct (B2 z Hz) as [y [Hy Hyz]].
      destruct (A2 y Hy) as [x [Hx Hxy]]; exists x; split; eauto.
  - eapply IH; eauto.
Qed.

(** A named type is [==] only to itself. *)
Lemma ty_eqb_named g a b : is_named g a = true -> ty_eqb a b = true -> b = a.
Proof.
  destruct a as [c| | |]; simpl; intros Hn H; try discriminate.
  destruct b; simpl in H; try discriminate.
  apply Nat.eqb_eq in H; subst; reflexivity.
Qed.

(** [x] is [in] the list [l] in Python's sense. *)
Definition In_eq (x : ty) (l : list ty) : Prop :=
  exists u, In u l /\ ty_eqb x u = true.

Lemma mem_In_eq x l : mem x l = true <-> In_eq x l.
Proof. unfold mem, In_eq; rewrite existsb_exists; reflexivity. Qed.

Lemma In_In_eq x l : In x l -> In_eq x l.
Proof. intros H; exists x; split; [exact H | apply ty_eqb_refl]. Qed.

Lemma In_eq_trans x y l : ty_eqb x y = true -> In_eq y l -> In_eq x l.
Proof. intros H [u [Hu Hyu]]; exists u; split; [exact Hu | eapply ty_eqb_trans; eauto]. Qed.

(** No two entries of the list are [==]. *)
Fixpoint distinct (l : list ty) : Prop :=
  match l with
  | [] => True
  | x :: l' => ~ In_eq x l' /\ distinct l'
  end.

Lemma distinct_snoc x l : distinct l -> ~ In_eq x l -> distinct (l ++ [x]).
Proof.
  induction l as [|y l IH]; simpl; intros Hl Hx.
  - split; [intros [u [[] _]] | exact I].
  - destruct Hl as [Hy Hl]; split.
    + intros [u [Hu Hyu]]; apply in_app_or in Hu as [Hu|[<-|[]]].
      * apply Hy; exists u; split; assumption.
      * apply Hx; exists y; split; [left; reflexivity | apply ty_eqb_sym, Hyu].
    + apply IH; [exact Hl|].
      intros [u [Hu Hxu]]; apply Hx; exists u; split; [right; exact Hu | exact Hxu].
Qed.

Lemma distinct_NoDup l : distinct l -> NoDup l.
Proof.
  induction l as [|x l IH]; simpl; intros H; constructor.
  - intros Hi; apply (proj1 H), In_In_eq, Hi.
  - apply IH, H.
Qed.

(** *** The registrar's loop *)

Lemma visit_run_seq rec g p st :
  visit rec g p st
  = run_seq rec (blocks g p) (if is_named g p then push_registered p st else st).
Proof.
  destruct p as [c| |args|a]; simpl; unfold register_fields_type;
    try destruct (kind_of g c); simpl;
    repeat match goal with |- context [rec ?x ?y] => destruct (rec x y) end;
    reflexivity.
Qed.

Lemma blocks_children g p : concat (blocks g p) = children g p.
Proof.
  destruct p as [c| |args|a]; simpl; try destruct (kind_of g c); simpl;
    rewrite ?app_nil_r; reflexivity.
Qed.

(** [==] annotations have [==] children. *)
Lemma children_eqb g a b : ty_eqb a b = true ->
  forall x, In x (children g a) -> exists y, In y (children g b) /\ ty_eqb x y = true.
Proof.
  intros H x Hx; destruct a as [c| |xs|a'], b as [d| |ys|b'];
    simpl in H; try discriminate.
  - apply Nat.eqb_eq in H; subst; exists x; split; [exact Hx | apply ty_eqb_refl].
  - contradiction.
  - apply union_eqb in H as [H1 _]; exact (H1 x Hx).
  - destruct Hx as [<-|[]]; exists b'; split; [left; reflexivity | exact H].
Qed.

Section Facts.

Variable g : graph.

Definition Prefix (s s' : state) : Prop :=
  exists l, validated_type s' = validated_type s ++ l.

(** [registered_type] is the named part of [validated_type], in order. *)
Definition Inv (s : state) : Prop :=
  registered_type s = filter (is_named g) (validated_type s).

(** Every type [s'] visited beyond [s] has all its children [in] the
    visited list. *)
Definition closed_from (s s' : state) : Prop :=
  forall t, In t (validated_type s') -> ~ In t (validated_type s) ->
            forall x, In x (children g t) -> In_eq x (validated_type s').

(** Every type [s'] visited beyond [s] is reachable from [ts]. *)
Definition sound_from (ts : list ty) (s s' : state) : Prop :=
  forall t, In t (validated_type s') -> In t (validated_type s) \/ reach g ts t.

Definition RecOk (rec : list ty -> state -> option state) : Prop :=
  forall ts s s', rec ts s = Some s' ->
    Prefix s s' /\ (Inv s -> Inv s') /\
    (distinct (validated_type s) -> distinct (validated_type s')) /\
    (forall t, In t ts -> In_eq t (validated_type s')) /\
    closed_from s s' /\ sound_from ts s s'.

Lemma prefix_refl s : Prefix s s.
Proof. exists []; rewrite app_nil_r; reflexivity. Qed.

Lemma prefix_trans s1 s2 s3 : Prefix s1 s2 -> Prefix s2 s3 -> Prefix s1 s3.
Proof.
  intros [l1 H1] [l2 H2]; exists (l1 ++ l2); rewrite H2, H1, app_assoc; reflexivity.
Qed.

Lemma prefix_In s s' t : Prefix s s' -> In t (validated_type s) -> In t (validated_type s').
Proof. intros [l H] Hi; rewrite H; apply in_or_app; auto. Qed.

Lemma prefix_In_eq s s' t : Prefix s s' -> In_eq t (validated_type s) -> In_eq t (validated_type s').
Proof. intros P [u [Hu H]]; exists u; split; [apply (prefix_In _ _ _ P), Hu | exact H]. Qed.

Lemma prefix_length s s' : Prefix s s' ->
  length (validated_type s) <= length (validated_type s').
Proof. intros [l H]; rewrite H, length_app; lia. Qed.

Lemma reach_mono l l' t : reach g l t -> incl l l' -> reach g l' t.
Proof.
  induction 1 as [t Hi|t u _ IH Hu]; intros Hl.
  - apply reach_start; auto.
  - eapply reach_step; eauto.
Qed.

Lemma reach_trans l l' u :
  reach g l u -> (forall x, In x l -> reach g l' x) -> reach g l' u.
Proof.
  induction 1 as [t Hi|t u _ IH Hu]; intros Hl; auto.
  eapply reach_step; eauto.
Qed.

Lemma run_seq_ok rec : RecOk rec ->
  forall bs s s', run_seq rec bs s = Some s' ->
    Prefix s s' /\ (Inv s -> Inv s') /\
    (distinct (validated_type s) -> distinct (validated_type s')) /\
    (forall t, In t (concat bs) -> In_eq t (validated_type s')) /\
    closed_from s s' /\ sound_from (concat bs) s s'.
Proof.
  intros Hrec bs; induction bs as [|b bs IH]; intros s s' H; simpl in H.
  - injection H as <-.
    split; [apply prefix_refl|]. split; [auto|]. split; [auto|].
    split; [intros x []|]. split; [intros t Hi Hn; contradiction|].
    intros t Ht; left; exact Ht.
  - destruct (rec b s) as [s0|] eqn:E; [|discriminate].
    apply Hrec in E as (P1 & I1 & N1 & C1 & CL1 & S1).
    apply IH in H as (P2 & I2 & N2 & C2 & CL2 & S2).
    split; [eapply prefix_trans; eauto|]. split; [auto|]. split; [auto|].
    split; [|split].
    + simpl; intros x Hx; apply in_app_or in Hx as [Hx|Hx].
      * apply (prefix_In_eq _ _ _ P2), C1, Hx.
      * apply C2, Hx.
    + intros t Ht Hn.
      destruct (in_dec ty_eq_dec t (validated_type s0)) as [H0|H0].
      * intros x Hx; apply (prefix_In_eq _ _ _ P2), (CL1 t H0 Hn x Hx).
      * apply (CL2 t Ht H0).
    + intros t Ht. simpl.
      destruct (S2 t Ht) as [H0|H0].
      * destruct (S1 t H0) as [H1|H1]; auto.
        right; eapply reach_mono; eauto; intros x Hx; apply in_or_app; auto.
      * right; eapply reach_mono; eauto; intros x Hx; apply in_or_app; auto.
Qed.

Lemma visit_ok rec p s s' : RecOk rec -> ~ In_eq p (validated_type s) ->
  visit rec g p (mark_validated p s) = Some s' ->
  Prefix (mark_validated p s) s' /\ (Inv s -> Inv s') /\
  (distinct (validated_type s) -> distinct (validated_type s')) /\
  (forall t, In t (children g p) -> In_eq t (validated_type s')) /\
  closed_from (mark_validated p s) s' /\
  sound_from (children g p) (mark_validated p s) s'.
Proof.
  intros Hrec Hp H. rewrite visit_run_seq in H.
  set (s0 := if is_named g p then push_registered p (mark_validated p s)
             else mark_validated p s) in H.
  assert (E0 : validated_type s0 = validated_type (mark_validated p s))
    by (unfold s0; destruct (is_named g p); reflexivity).
  assert (I0 : Inv s -> Inv s0).
  { unfold Inv, s0; intros Hi.
    destruct (is_named g p) eqn:En; simpl; rewrite filter_app; simpl;
      rewrite En, Hi; [reflexivity | rewrite app_nil_r; reflexivity]. }
  apply (run_seq_ok rec Hrec) in H as (P & I & N & C & CL & S).
  rewrite blocks_children in C, S.
  split; [|split; [|split; [|split; [|split]]]].
  - destruct P as [l Hl]; exists l; rewrite Hl, E0; reflexivity.
  - intros Hi; apply I, I0, Hi.
  - intros Hn; apply N; rewrite E0; apply distinct_snoc; auto.
  - exact C.
  - intros t Ht Hn; apply CL; [exact Ht | rewrite E0; exact Hn].
  - intros t Ht; rewrite <- E0; apply S, Ht.
Qed.

Lemma loop_ok rec : RecOk rec -> RecOk (register_loop rec g).
Proof.
  intros Hrec ts; induction ts as [|p ts IH]; intros s s' H; simpl in H.
  - injection H as <-.
    split; [apply prefix_refl|]. split; [auto|]. split; [auto|].
    split; [intros x []|]. split; [intros t Hi Hn; contradiction|].
    intros t Ht; left; exact Ht.
  - destruct (mem p (validated_type s)) eqn:M.
    + apply mem_In_eq in M.
      apply IH in H as (P & I & N & C & CL & S).
      split; [exact P|]. split; [exact I|]. split; [exact N|].
      split; [|split; [exact CL|]].
      * intros x [<-|Hx]; [apply (prefix_In_eq _ _ _ P), M | apply C, Hx].
      * intros t Ht; destruct (S t Ht) as [H1|H1]; [left; exact H1|].
        right; eapply reach_mono; [exact H1|]; intros x Hx; right; exact Hx.
    + assert (Hp : ~ In_eq p (validated_type s))
        by (intros Hi; apply mem_In_eq in Hi; congruence).
      destruct (visit rec g p (mark_validated p s)) as [s0|] eqn:E; [|discriminate].
      apply (visit_ok rec p s s0 Hrec Hp) in E as (P1 & I1 & N1 & C1 & CL1 & S1).
      apply IH in H as (P2 & I2 & N2 & C2 & CL2 & S2).
      assert (Pm : Prefix s (mark_validated p s)) by (exists [p]; reflexivity).
      assert (Hpm : In p (validated_type (mark_validated p s)))
        by (simpl; apply in_or_app; right; left; reflexivity).
      split; [eapply prefix_trans; [exact Pm|]; eapply prefix_trans; eauto|].
      split; [auto|]. split; [auto|].
      split; [|split].
      * intros x [<-|Hx]; [|apply C2, Hx].
        apply In_In_eq, (prefix_In _ _ _ P2), (prefix_In _ _ _ P1), Hpm.
      * intros t Ht Hn.
        destruct (in_dec ty_eq_dec t (validated_type s0)) as [H0|H0];
          [|apply (CL2 t Ht H0)].
        intros x Hx; apply (prefix_In_eq _ _ _ P2).
        destruct (ty_eq_dec t p) as [->|Htp]; [apply C1, Hx|].
        apply (CL1 t H0); [|exact Hx].
        simpl; rewrite in_app_iff; simpl; intuition congruence.
      * intros t Ht.
        destruct (S2 t Ht) as [H0|H0];
          [|right; eapply reach_mono; [exact H0|]; intros x Hx; right; exact Hx].
        destruct (S1 t H0) as [H1|H1].
        -- simpl in H1; rewrite in_app_iff in H1; simpl in H1.
           destruct H1 as [H1|[<-|[]]]; [left; exact H1|].
           right; apply reach_start; left; reflexivity.
        -- right; eapply reach_trans; [exact H1|].
           intros x Hx; eapply reach_step; [|exact Hx].
           apply reach_start; left; reflexivity.
Qed.

Lemma register_types_ok fuel : RecOk (register_types fuel g).
Proof.
  induction fuel as [|fuel IH]; [intros ts s s' H; discriminate|].
  apply loop_ok, IH.
Qed.

(** *** More fuel changes nothing *)

Definition Below (r r' : list ty -> state -> option state) : Prop :=
  forall ts s s', r ts s = Some s' -> r' ts s = Some s'.

Lemma run_seq_mono r r' : Below r r' ->
  forall bs s s', run_seq r bs s = Some s' -> run_seq r' bs s = Some s'.
Proof.
  intros Hr bs; induction bs as [|b bs IH]; intros s s' H; simpl in *; auto.
  destruct (r b s) as [s0|] eqn:E; [|discriminate].
  rewrite (Hr _ _ _ E); apply IH, H.
Qed.

Lemma loop_mono r r' : Below r r' -> Below (register_loop r g) (register_loop r' g).
Proof.
  intros Hr ts; induction ts as [|p ts IH]; intros s s' H; simpl in *; auto.
  destruct (mem p (validated_type s)); [apply IH, H|].
  destruct (visit r g p (mark_validated p s)) as [s0|] eqn:E; [|discriminate].
  rewrite visit_run_seq in E |- *.
  rewrite (run_seq_mono r r' Hr _ _ _ E); apply IH, H.
Qed.

Lemma register_types_mono f f' : f <= f' ->
  Below (register_types f g) (register_types f' g).
Proof.
  revert f'; induction f as [|f IH]; intros f' Hle ts s s' H; [discriminate|].
  destruct f' as [|f']; [lia|].
  simpl in *; eapply loop_mono; [apply IH; lia | exact H].
Qed.

(** *** Termination within a closed finite set of annotations *)

Definition closed_set (U : list ty) : Prop :=
  forall t, In t U -> incl (children g t) U.

Lemma reach_closed U ts t : closed_set U -> incl ts U -> reach g ts t -> In t U.
Proof.
  intros HU Hts; induction 1 as [t Hi|t u _ IH Hu]; auto.
  apply (HU t IH), Hu.
Qed.

Lemma In_blocks_children p b : In b (blocks g p) -> incl b (children g p).
Proof.
  rewrite <- blocks_children; intros Hb x Hx; apply in_concat; eauto.
Qed.

Section Termination.

Variable U : list ty.
Hypothesis HU : closed_set U.

(** What a call [rec ts s] needs in order to return: [ts] and the visited
    types lie in [U], and the fuel exceeds the number of types of [U] not
    yet visited. *)
Definition Fits (k : nat) (rec : list ty -> state -> option state) : Prop :=
  forall ts s, incl ts U -> incl (validated_type s) U -> distinct (validated_type s) ->
    length U - length (validated_type s) < k -> exists s', rec ts s = Some s'.

Lemma after_call rec ts s s' : RecOk rec -> rec ts s = Some s' ->
  incl ts U -> incl (validated_type s) U -> distinct (validated_type s) ->
  incl (validated_type s') U /\ distinct (validated_type s') /\
  length (validated_type s) <= length (validated_type s').
Proof.
  intros Hrec E Hts Hv Hn.
  destruct (Hrec _ _ _ E) as (P & _ & N & _ & _ & S).
  split; [|split; [apply N, Hn | apply prefix_length, P]].
  intros t Ht; destruct (S t Ht) as [H|H]; [apply Hv, H|].
  exact (reach_closed U ts t HU Hts H).
Qed.

Lemma run_seq_term f : Fits f (register_types f g) ->
  forall bs s, (forall b, In b bs -> incl b U) ->
    incl (validated_type s) U -> distinct (validated_type s) ->
    length U - length (validated_type s) < f ->
    exists s', run_seq (register_types f g) bs s = Some s'.
Proof.
  intros Hf bs; induction bs as [|b bs IH]; intros s Hbs Hv Hn Hl; simpl; eauto.
  destruct (Hf b s) as [s0 E]; auto; [apply Hbs; left; reflexivity|].
  rewrite E.
  destruct (after_call _ _ _ _ (register_types_ok f) E) as (Hv0 & Hn0 & Hl0);
    auto; [apply Hbs; left; reflexivity|].
  apply IH; auto; [intros b' Hb'; apply Hbs; right; exact Hb' | lia].
Qed.

Lemma register_types_term f : Fits f (register_types f g).
Proof.
  induction f as [|f IHf]; intros ts s Hts Hv Hn Hl; [lia|].
  simpl; revert s Hv Hn Hl.
  induction ts as [|p ts IH]; intros s Hv Hn Hl; simpl; eauto.
  assert (Hts' : incl ts U) by (intros x Hx; apply Hts; right; exact Hx).
  assert (HpU : In p U) by (apply Hts; left; reflexivity).
  destruct (mem p (validated_type s)) eqn:M; [apply IH; auto|].
  assert (Hp : ~ In_eq p (validated_type s))
    by (intros Hi; apply mem_In_eq in Hi; congruence).
  assert (Hv0 : incl (validated_type (mark_validated p s)) U).
  { simpl; intros x Hx; apply in_app_or in Hx as [Hx|[<-|[]]]; auto. }
  assert (Hn0 : distinct (validated_type (mark_validated p s)))
    by (apply distinct_snoc; auto).
  assert (Hlen : length (validated_type (mark_validated p s)) <= length U)
    by (apply NoDup_incl_length; auto using distinct_NoDup).
  assert (Hl0 : length U - length (validated_type (mark_validated p s)) < f)
    by (simpl in *; rewrite length_app in *; simpl in *; lia).
  destruct (run_seq_term f IHf (blocks g p)
              (if is_named g p then push_registered p (mark_validated p s)
               else mark_validated p s)) as [s1 E];
    try (destruct (is_named g p); assumption).
  { intros b Hb x Hx; apply (HU p HpU), (In_blocks_children p b Hb), Hx. }
  rewrite <- visit_run_seq in E; rewrite E.
  destruct (visit_ok _ _ _ _ (register_types_ok f) Hp E) as (P1 & _ & N1 & _ & _ & S1).
  apply IH; auto.
  - intros t Ht; destruct (S1 t Ht) as [H|H]; [apply Hv0, H|].
    exact (reach_closed U (children g p) t HU (HU p HpU) H).
  - pose proof (prefix_length _ _ P1); simpl in *; rewrite length_app in *; lia.
Qed.

End Termination.

(** *** The universe of a graph is closed *)

Lemma subterms_union args :
  subterms (TUnionOf args) = TUnionOf args :: flat_map subterms args.
Proof.
  simpl; f_equal; induction args as [|a args IH]; simpl; congruence.
Qed.

Lemma subterms_self t : In t (subterms t).
Proof. destruct t; left; reflexivity. Qed.

Lemma subterms_trans s : forall t, In t (subterms s) -> incl (subterms t) (subterms s).
Proof.
  induction s as [c| |args IHargs|a IHa] using ty_ind'; intros t Ht.
  - destruct Ht as [<-|[]]; apply incl_refl.
  - destruct Ht as [<-|[]]; apply incl_refl.
  - rewrite subterms_union in *.
    destruct Ht as [<-|Ht]; [rewrite subterms_union; apply incl_refl|].
    apply in_flat_map in Ht as [a [Ha Ht]].
    rewrite Forall_forall in IHargs.
    intros x Hx; right; apply in_flat_map; exists a; split; auto.
    apply (IHargs a Ha t Ht), Hx.
  - simpl in Ht; destruct Ht as [<-|Ht]; [apply incl_refl|].
    intros x Hx; right; apply (IHa t Ht), Hx.
Qed.

Lemma type_args_subterms t : incl (type_args t) (subterms t).
Proof.
  destruct t as [c| |args|a]; simpl; intros x Hx; try contradiction.
  - right; rewrite <- (app_nil_r (flat_map subterms args)) at 1.
    change ((fix go (l : list ty) : list ty :=
               match l with [] => [] | a :: l' => subterms a ++ go l' end) args)
      with (flat_map subterms args).
    rewrite app_nil_r; apply in_flat_map; exists x; split; auto using subterms_self.
  - destruct Hx as [<-|[]]; right; apply subterms_self.
Qed.

Lemma universe_closed start : closed_set (universe g start).
Proof.
  unfold universe; intros t Ht.
  apply in_flat_map in Ht as [s [Hs Ht]].
  destruct t as [c| |args|a].
  - simpl; unfold kind_of.
    destruct (nth_in_or_default c g KScalar) as [Hin|Hdef]; [|rewrite Hdef; intros x []].
    intros x Hx; apply in_flat_map; exists x; split; [|apply subterms_self].
    apply in_or_app; right; apply in_flat_map; eauto.
  - intros x [].
  - intros x Hx; apply in_flat_map; exists s; split; auto.
    apply (subterms_trans s _ Ht), type_args_subterms, Hx.
  - intros x Hx; apply in_flat_map; exists s; split; auto.
    apply (subterms_trans s _ Ht), type_args_subterms, Hx.
Qed.

Lemma start_in_universe start : incl start (universe g start).
Proof.
  intros x Hx; apply in_flat_map; exists x; split; [apply in_or_app; auto|].
  apply subterms_self.
Qed.

End Facts.

End RegistrarFacts.

(** ** The registrar's claims *)

Module Registration.

Import RegistrarFacts.

Lemma register_from_empty g fuel ts st :
  register_types fuel g ts empty_state = Some st ->
  NoDup (registered_type st) /\ distinct (validated_type st) /\
  (forall t, In t (validated_type st) -> reach g ts t) /\
  (forall t, reach g ts t -> In_eq t (validated_type st)) /\
  (forall t, In t (registered_type st) <-> reach g ts t /\ is_named g t = true).
Proof.
  intros E.
  destruct (register_types_ok g fuel _ _ _ E) as (_ & I & N & C & CL & S).
  assert (Hi : Inv g st) by (apply I; reflexivity).
  assert (Hn : distinct (validated_type st)) by (apply N; simpl; trivial).
  assert (Hs : forall t, In t (validated_type st) -> reach g ts t)
    by (intros t Ht; destruct (S t Ht) as [[]|H]; exact H).
  assert (Hc : forall t, reach g ts t -> In_eq t (validated_type st)).
  { induction 1 as [t Ht|t u _ IH Hu]; [apply C, Ht|].
    destruct IH as [v [Hv Htv]].
    destruct (children_eqb g t v Htv u Hu) as [w [Hw Huw]].
    apply (In_eq_trans _ _ _ Huw), (CL v Hv (fun x => x) w Hw). }
  unfold Inv in Hi.
  split; [rewrite Hi; apply NoDup_filter, distinct_NoDup, Hn|].
  split; [exact Hn|]. split; [exact Hs|]. split; [exact Hc|].
  intros t; rewrite Hi, filter_In; split.
  - intros [Ht Hnt]; split; [apply Hs, Ht | exact Hnt].
  - intros [Ht Hnt]; split; [|exact Hnt].
    destruct (Hc t Ht) as [v [Hv Htv]].
    rewrite <- (ty_eqb_named g t v Hnt Htv); exact Hv.
Qed.

Lemma register_schema_total g root_fields :
  exists st, register_schema g root_fields = Some st /\
    forall fuel, fuel_bound g (param_return_types root_fields) <= fuel ->
      register_fields_type (register_types fuel g) root_fields empty_state = Some st.
Proof.
  set (ts := param_return_types root_fields).
  destruct (register_types_term g (universe g ts) (universe_closed g ts)
              (fuel_bound g ts) ts empty_state) as [st E].
  - apply start_in_universe.
  - intros x [].
  - constructor.
  - unfold fuel_bound; simpl; lia.
  - exists st; split; [exact E|].
    intros fuel Hf; apply (register_types_mono g _ _ Hf), E.
Qed.

Lemma reach_wraps g ts t x : reach g ts t -> wraps t x -> reach g ts x.
Proof.
  intros Ht Hw; induction Hw as [x|a x _ IH|args a x Ha _ IH]; auto.
  - apply IH; eapply reach_step; [exact Ht|]; left; reflexivity.
  - apply IH; eapply reach_step; [exact Ht|]; exact Ha.
Qed.

(** C2: [register_fields_type] / [register_types] terminate on every type
    graph, cyclic ones included: from an empty [validated_type], every
    recursion depth above a bound computed from the graph returns, and with
    the same registry. *)
Theorem registration_terminates g root_fields :
  exists st, forall fuel, fuel_bound g (param_return_types root_fields) <= fuel ->
    register_fields_type (register_types fuel g) root_fields empty_state = Some st.
Proof.
  destruct (register_schema_total g root_fields) as [st [_ H]]; eauto.
Qed.

(** C1: after registration, [registered_type] holds every named type
    (Object, Union, Input, Interface, Enum) reachable from the root's fields
    exactly once, and nothing else, whatever cycles or shared paths the
    graph has. *)
Theorem registered_type_exactly_once g root_fields :
  exists st, register_schema g root_fields = Some st /\
    forall t,
      (reach g (param_return_types root_fields) t /\ is_named g t = true ->
       count_occ ty_eq_dec (registered_type st) t = 1) /\
      (~ (reach g (param_return_types root_fields) t /\ is_named g t = true) ->
       count_occ ty_eq_dec (registered_type st) t = 0).
Proof.
  destruct (register_schema_total g root_fields) as [st [E _]].
  exists st; split; [exact E|].
  destruct (register_from_empty _ _ _ _ E) as (Hn & _ & _ & _ & Hr).
  intros t; split; intros H.
  - apply (proj1 (NoDup_count_occ' ty_eq_dec _) Hn), Hr, H.
  - apply count_occ_not_In; rewrite Hr; exact H.
Qed.

Lemma ftype_in_frontier name f fs :
  In (name, f) fs -> In (ftype f) (param_return_types fs).
Proof.
  intros H; unfold param_return_types; apply in_flat_map.
  exists (name, f); split; [exact H|]; destruct f; left; reflexivity.
Qed.

Lemma field_type_reach g ts c name f :
  reach g ts (TClass c) -> In (name, f) (kind_fields (kind_of g c)) ->
  reach g ts (ftype f).
Proof.
  intros Hc Hf; eapply reach_step; [exact Hc|]; simpl.
  destruct (kind_of g c); simpl in *; try contradiction;
    try (apply in_or_app; left); eapply ftype_in_frontier; eauto.
Qed.

Lemma named_not_wrapper g t : is_named g t = true -> is_union t = false /\ is_list t = false.
Proof. destruct t; simpl; intros H; try discriminate; split; reflexivity. Qed.

(** C6: a field of the root or of a reachable class whose type is [X] under
    [List] / [Optional] (or [Union]) wrappers, with [X] a named type: [X] is
    registered exactly once, and [registered_type] holds no wrapper. *)
Theorem wrapper_transparent g root_fields name f x :
  (In (name, f) root_fields \/
   exists c, reach g (param_return_types root_fields) (TClass c) /\
             In (name, f) (kind_fields (kind_of g c))) ->
  wraps (ftype f) x -> is_named g x = true ->
  exists st, register_schema g root_fields = Some st /\
    count_occ ty_eq_dec (registered_type st) x = 1 /\
    (forall w, In w (registered_type st) -> is_union w = false /\ is_list w = false).
Proof.
  intros Hf Hw Hx.
  assert (Hr : reach g (param_return_types root_fields) (ftype f)).
  { destruct Hf as [Hf|[c [Hc Hf]]].
    - apply reach_start; eapply ftype_in_frontier; eauto.
    - eapply field_type_reach; eauto. }
  destruct (register_schema_total g root_fields) as [st [E _]].
  destruct (register_from_empty _ _ _ _ E) as (Hn & _ & _ & _ & Hreg).
  exists st; split; [exact E|]; split.
  - apply (proj1 (NoDup_count_occ' ty_eq_dec _) Hn), Hreg.
    split; [eapply reach_wraps; eauto | exact Hx].
  - intros w Hw'; apply (named_not_wrapper g), Hreg, Hw'.
Qed.



(** Instance of C6 on [g1]: the resolver field [Query.search] of type
    [List[Optional[Node]]] registers the interface [Node] once. *)
Lemma wrapper_transparent_witness :
  exists st, register_schema g1 root1 = Some st /\
    count_occ ty_eq_dec (registered_type st) (TClass 2) = 1 /\
    (forall w, In w (registered_type st) -> is_union w = false /\ is_list w = false).
Proof.
  apply (wrapper_transparent g1 root1 "search"%string
           (ResolverField (TListOf (TUnionOf [TClass 2; TNone])) [("kind"%string, TClass 4)])
           (TClass 2)).
  - right; exists 0; split.
    + eapply reach_step; [apply reach_start; left; reflexivity|]; simpl; left; reflexivity.
    + simpl; right; left; reflexivity.
  - simpl; apply wraps_list; eapply wraps_union; [left; reflexivity | apply wraps_self].
  - reflexivity.
Defined.

End Registration.

(** ** The root validation's claim *)

Module RootValidation.

Lemma check_root_field_ok g nf : check_root_field g nf = None <-> root_shape_ok g nf.
Proof.
  destruct nf as [name entry]; unfold check_root_field, root_shape_ok, mem_name.
  cbn [fst snd].
  destruct (in_dec string_dec name VALID_ROOT_TYPES) as [Hn|Hn]; cbv beta iota.
  - destruct entry as [f|].
    + destruct (is_optional (ftype f)) eqn:Ho; cbv beta iota.
      * destruct (type_args (ftype f)) as [|a rest] eqn:Ha.
        -- split; [intros Hd; discriminate Hd|].
           intros [_ [f' [[= <-] [_ [a [rest' [Ha' _]]]]]]]; congruence.
        -- destruct (is_object_type g a) eqn:Hobj.
           ++ split; [intros _|reflexivity].
              split; [exact Hn|]; exists f; repeat split; auto; eauto.
           ++ split; [intros Hd; discriminate Hd|].
              intros [_ [f' [[= <-] [_ [a' [rest' [Ha' Hobj']]]]]]].
              rewrite Ha in Ha'; injection Ha' as -> ->; congruence.
      * split; [intros Hd; discriminate Hd|]; intros [_ [f' [[= <-] [Ho' _]]]]; congruence.
    + split; [intros Hd; discriminate Hd|]; intros [_ [f' [H _]]]; discriminate.
  - split; [intros Hd; discriminate Hd|]; intros [H _]; contradiction.
Qed.

Lemma check_root_fields_ok g fields :
  check_root_fields g fields = None <-> forall nf, In nf fields -> root_shape_ok g nf.
Proof.
  induction fields as [|nf fields IH]; simpl.
  - split; [intros _ nf []|reflexivity].
  - destruct (check_root_field g nf) as [e|] eqn:E.
    + split; [intros Hd; discriminate Hd|]; intros H.
      assert (Hok : root_shape_ok g nf) by (apply H; left; reflexivity).
      apply check_root_field_ok in Hok; congruence.
    + rewrite IH; split.
      * intros H nf' [<-|Hi]; [apply check_root_field_ok, E | apply H, Hi].
      * intros H nf' Hi; apply H; right; exact Hi.
Qed.

Lemma root_shape_ok_spec g nf : root_shape_ok g nf -> root_shape_spec g nf.
Proof.
  intros [Hn [f [Hf [Ho [a [rest [Ha Hobj]]]]]]].
  split; [exact Hn|]; exists f; split; [exact Hf|].
  destruct (ftype f) as [| |args|]; simpl in Ho, Ha; try discriminate.
  subst args.
  apply andb_true_iff in Ho as [Hm Hl].
  destruct rest as [|b [|b' rest]]; simpl in Hl; try discriminate.
  destruct a as [c| | |]; simpl in Hobj; try discriminate.
  destruct b; simpl in Hm; try discriminate.
  exists (TClass c); split; [reflexivity | exact Hobj].
Qed.

(** C5 (amended): [validate] raises a [ValidationError] from its root-shape
    loop, and [SchemaType.__new__] fails with it, as soon as one root field
    has a name other than [query] / [mutation], is not a [Field], or has a
    type that is not an optional wrapping of an Object type.  The loop
    accepts exactly the roots whose fields also list the Object type first
    ([__args__[0]], as [Optional[X]] does), which is the spec's shape or
    narrower; [validate] is then [ObjectType.validate]. *)
Theorem validate_root_shape g fields object_validate :
  ((exists nf, In nf fields /\ ~ root_shape_spec g nf) ->
   exists e, check_root_fields g fields = Some e /\
     validate g fields object_validate = Some e /\
     schema_new g fields object_validate = inl (SchemaInvalid e)) /\
  (forall nf, root_shape_ok g nf -> root_shape_spec g nf) /\
  (check_root_fields g fields = None <-> forall nf, In nf fields -> root_shape_ok g nf) /\
  ((forall nf, In nf fields -> root_shape_ok g nf) ->
   validate g fields object_validate = object_validate).
Proof.
  split; [|split; [apply root_shape_ok_spec|split; [apply check_root_fields_ok|]]].
  - intros [nf [Hi Hbad]].
    destruct (check_root_fields g fields) as [e|] eqn:E.
    + exists e; unfold schema_new, validate; rewrite E; repeat split.
    + exfalso; apply Hbad, root_shape_ok_spec.
      apply (proj1 (check_root_fields_ok g fields) E), Hi.
  - intros H; apply check_root_fields_ok in H.
    unfold validate; rewrite H; reflexivity.
Qed.

(** C5: a root [query: Union[None, Query]] ([== Optional[Query]]) is an
    optional wrapping of an Object type, yet [validate] raises, since
    [__args__[0]] is [NoneType], and the schema is not built. *)
Lemma validate_root_shape_counterexample :
  (forall nf, In nf [("query"%string, RootField (Field (TUnionOf [TNone; TClass 0])))] ->
              root_shape_spec g1 nf) /\
  validate g1 [("query"%string, RootField (Field (TUnionOf [TNone; TClass 0])))] None
  = Some (RootNotObject (TUnionOf [TNone; TClass 0])) /\
  schema_new g1 [("query"%string, RootField (Field (TUnionOf [TNone; TClass 0])))] None
  = inl (SchemaInvalid (RootNotObject (TUnionOf [TNone; TClass 0]))).
Proof.
  split; [|split; vm_compute; reflexivity].
  intros nf [<-|[]]; split; [left; reflexivity|].
  exists (Field (TUnionOf [TNone; TClass 0])); split; [reflexivity|].
  exists (TClass 0); split; reflexivity.
Qed.

End RootValidation.

(** ** The execution's claims *)

Module ExecutionClaims.

Section Claims.

Context {selection exn value parse_error request variables : Type}.
Variable parse : string -> list (@definition selection) + parse_error.
Variable instantiate : ty -> value.
Variable resolve : value -> list selection -> list exn -> @resolution exn value.
Variable encode : @envelope exn value -> string.

Lemma execute_loop_first fields document pre op sels post (req : request) (vars : variables) :
  (forall d, In d pre -> qualifies d = false) -> is_query_or_mutation op = true ->
  execute_loop (parse_error:=parse_error) instantiate resolve encode fields document
    (pre ++ OperationDefinitionNode op sels :: post) req vars
  = run_operation (parse_error:=parse_error) instantiate resolve encode fields document op sels req vars.
Proof.
  intros Hpre Hop; induction pre as [|d pre IH]; simpl.
  - rewrite Hop; reflexivity.
  - assert (Hd : qualifies d = false) by (apply Hpre; left; reflexivity).
    destruct d as [op' sels'|]; simpl in Hd; [rewrite Hd|];
      apply IH; intros d' Hi; apply Hpre; right; exact Hi.
Qed.

Lemma execute_loop_none fields document defs (req : request) (vars : variables) :
  (forall d, In d defs -> qualifies d = false) ->
  execute_loop (parse_error:=parse_error) instantiate resolve encode fields document defs req vars = (Return None, []).
Proof.
  intros Hdefs; induction defs as [|d defs IH]; simpl; [reflexivity|].
  assert (Hd : qualifies d = false) by (apply Hdefs; left; reflexivity).
  destruct d as [op' sels'|]; simpl in Hd; [rewrite Hd|];
    apply IH; intros d' Hi; apply Hdefs; right; exact Hi.
Qed.

(** C7: [execute] runs the first definition that is a query or mutation
    operation, skipping the definitions before it (fragments, other
    operations); only its kind and selection set are used, the later
    definitions are never run (they reach the resolvers only as the
    [root_ast] of the context). *)
Theorem execute_first_operation fields query (vars : variables) (req : request) pre op sels post :
  parse query = inl (pre ++ OperationDefinitionNode op sels :: post) ->
  (forall d, In d pre -> qualifies d = false) ->
  is_query_or_mutation op = true ->
  execute parse instantiate resolve encode fields query vars req
  = run_operation (parse_error:=parse_error) instantiate resolve encode fields
      (pre ++ OperationDefinitionNode op sels :: post) op sels req vars.
Proof.
  intros Hp Hpre Hop; unfold execute; rewrite Hp.
  apply execute_loop_first; assumption.
Qed.

(** C9: a parsed document without a query or mutation operation makes
    [execute] return [None], with the context variable untouched. *)
Theorem execute_no_operation fields query (vars : variables) (req : request) document :
  parse query = inl document ->
  (forall d, In d document -> qualifies d = false) ->
  execute parse instantiate resolve encode fields query vars req = (Return None, []).
Proof.
  intros Hp Hdefs; unfold execute; rewrite Hp.
  apply execute_loop_none; assumption.
Qed.

(** C3: when an exception escapes the root resolution, [execute] does not
    raise: the exception is appended, once, to the error collector, the
    context is reset, and [execute] returns the encoded envelope with
    [success = False]. *)
Theorem execute_catches_resolution_error fields query (vars : variables) (req : request)
    pre op sels post name entry a e obj_after collector :
  parse query = inl (pre ++ OperationDefinitionNode op sels :: post) ->
  (forall d, In d pre -> qualifies d = false) ->
  is_query_or_mutation op = true ->
  FIELD_MAP op = Some name ->
  dict_get name fields = Some entry ->
  root_class (parse_error:=parse_error) entry = inr a ->
  resolve (instantiate a) sels [] = ResolveRaised e obj_after collector ->
  execute parse instantiate resolve encode fields query vars req
  = (Return (Some (encode (mk_envelope (Some (collector ++ [e])) obj_after), false)),
     [ContextSet (Context (pre ++ OperationDefinitionNode op sels :: post) req vars);
      ContextReset]).
Proof.
  intros Hp Hpre Hop Hname Hget Hcls Hres.
  unfold execute; rewrite Hp, execute_loop_first by assumption.
  unfold run_operation; rewrite Hname, Hget, Hcls, Hres.
  destruct collector; reflexivity.
Qed.

(** C4: once resolution has ended, the envelope's [errors] is the collected
    list when it is non-empty and [None] when it is empty, its [data] is
    the value resolution produced, and [success] holds iff no error was
    collected. *)
Theorem execute_envelope fields query (vars : variables) (req : request) pre op sels post
    name entry a r :
  parse query = inl (pre ++ OperationDefinitionNode op sels :: post) ->
  (forall d, In d pre -> qualifies d = false) ->
  is_query_or_mutation op = true ->
  FIELD_MAP op = Some name ->
  dict_get name fields = Some entry ->
  root_class (parse_error:=parse_error) entry = inr a ->
  resolve (instantiate a) sels [] = r ->
  exists errs success,
    execute parse instantiate resolve encode fields query vars req
    = (Return (Some (encode (mk_envelope errs (produced r)), success)),
       [ContextSet (Context (pre ++ OperationDefinitionNode op sels :: post) req vars);
        ContextReset]) /\
    (collected r = [] -> errs = None) /\
    (collected r <> [] -> errs = Some (collected r)) /\
    (success = true <-> collected r = []).
Proof.
  intros Hp Hpre Hop Hname Hget Hcls Hres.
  unfold execute; rewrite Hp, execute_loop_first by assumption.
  unfold run_operation; rewrite Hname, Hget, Hcls, Hres.
  destruct r as [v c|e o c]; simpl.
  - destruct c as [|x xs].
    + exists None, true; split; [reflexivity|].
      split; [reflexivity|]. split; [intros H; contradiction H; reflexivity|].
      split; reflexivity.
    + exists (Some (x :: xs)), false; split; [reflexivity|].
      split; [discriminate|]. split; [reflexivity|]. split; discriminate.
  - exists (Some (c ++ [e])), false.
    assert (Hne : c ++ [e] <> []) by (destruct c; discriminate).
    split; [destruct c; reflexivity|].
    split; [intros H; contradiction|]. split; [reflexivity|].
    split; [discriminate|intros H; contradiction].
Qed.

(** C10: with a root that has no [mutation] field, a document whose first
    query-or-mutation operation is a mutation makes [execute] raise
    [KeyError('mutation')] from [cls.__fields__[...]], before any context
    is set and with no envelope built. *)
Theorem execute_missing_mutation fields query (vars : variables) (req : request) pre sels post :
  parse query = inl (pre ++ OperationDefinitionNode MUTATION sels :: post) ->
  (forall d, In d pre -> qualifies d = false) ->
  dict_get "query"%string fields <> None ->
  dict_get "mutation"%string fields = None ->
  execute parse instantiate resolve encode fields query vars req
  = (Raise (KeyError "mutation"%string), []).
Proof.
  intros Hp Hpre _ Hm.
  unfold execute; rewrite Hp, execute_loop_first by (assumption || reflexivity).
  unfold run_operation; simpl; rewrite Hm; reflexivity.
Qed.

End Claims.

(** Instance of C7 on [doc1]: the fragment is skipped, the query runs, the
    mutation after it does not. *)
Lemma execute_first_operation_witness :
  execute parse1 instantiate1 resolve_ok encode1 schema_fields1 "{ hello }"%string tt tt
  = run_operation (parse_error:=unit) instantiate1 resolve_ok encode1 schema_fields1
      doc1 QUERY [tt] tt tt.
Proof.
  apply (execute_first_operation parse1 instantiate1 resolve_ok encode1 schema_fields1
           "{ hello }"%string tt tt [OtherDefinition] QUERY [tt]
           [OperationDefinitionNode MUTATION []]).
  - reflexivity.
  - intros d [<-|[]]; reflexivity.
  - reflexivity.
Defined.

(** Instance of C9: a fragment and a subscription only. *)
Lemma execute_no_operation_witness :
  execute parse2 instantiate1 resolve_ok encode1 schema_fields1 "{ hello }"%string tt tt
  = (Return None, []).
Proof.
  apply (execute_no_operation parse2 instantiate1 resolve_ok encode1 schema_fields1
           "{ hello }"%string tt tt
           [OtherDefinition; OperationDefinitionNode SUBSCRIPTION [tt]]).
  - reflexivity.
  - intros d [<-|[<-|[]]]; reflexivity.
Defined.

(** Instance of C3: the resolution records [3] and raises [7]. *)
Lemma execute_catches_resolution_error_witness :
  execute parse1 instantiate1 resolve_raises encode1 schema_fields1 "{ hello }"%string tt tt
  = (Return (Some (encode1 (mk_envelope (Some ([3] ++ [7])) 1), false)),
     [ContextSet (Context doc1 tt tt); ContextReset]).
Proof.
  apply (execute_catches_resolution_error parse1 instantiate1 resolve_raises encode1
           schema_fields1 "{ hello }"%string tt tt [OtherDefinition] QUERY [tt]
           [OperationDefinitionNode MUTATION []] "query"%string
           (RootField (Field (TUnionOf [TClass 0; TNone]))) (TClass 0) 7 1 [3]);
    try reflexivity.
  intros d [<-|[]]; reflexivity.
Defined.

(** Instance of C4: the resolution returns [42] with no error. *)
Lemma execute_envelope_witness :
  exists errs success,
    execute parse1 instantiate1 resolve_ok encode1 schema_fields1 "{ hello }"%string tt tt
    = (Return (Some (encode1 (mk_envelope errs 42), success)),
       [ContextSet (Context doc1 tt tt); ContextReset]) /\
    ([] = @nil nat -> errs = None) /\
    ([] <> @nil nat -> errs = Some []) /\
    (success = true <-> [] = @nil nat).
Proof.
  apply (execute_envelope parse1 instantiate1 resolve_ok encode1 schema_fields1
           "{ hello }"%string tt tt [OtherDefinition] QUERY [tt]
           [OperationDefinitionNode MUTATION []] "query"%string
           (RootField (Field (TUnionOf [TClass 0; TNone]))) (TClass 0) (Resolved 42 []));
    try reflexivity.
  intros d [<-|[]]; reflexivity.
Defined.

(** Instance of C10: a root with [query] only and a mutation request. *)
Lemma execute_missing_mutation_witness :
  execute parse3 instantiate1 resolve_ok encode1 schema_fields1 "mutation { m }"%string tt tt
  = (Raise (KeyError "mutation"%string), []).
Proof.
  apply (execute_missing_mutation parse3 instantiate1 resolve_ok encode1 schema_fields1
           "mutation { m }"%string tt tt [] [tt] []).
  - reflexivity.
  - intros d [].
  - simpl; congruence.
  - reflexivity.
Defined.

End ExecutionClaims.

(** ** Further properties of the registrar and of schema construction *)

Module RegistryFacts.

Import RegistrarFacts Registration RootValidation.

Lemma loop_cons_fresh rec g p ts s :
  mem p (validated_type s) = false ->
  register_loop rec g (p :: ts) s
  = (s0 <- visit rec g p (mark_validated p s) ;; register_loop rec g ts s0).
Proof. intros H; simpl; rewrite H; reflexivity. Qed.

Lemma loop_all_visited rec g ts s :
  (forall t, In t ts -> mem t (validated_type s) = true) ->
  register_loop rec g ts s = Some s.
Proof.
  induction ts as [|p ts IH]; intros H; simpl; [reflexivity|].
  rewrite (H p (or_introl eq_refl)); apply IH; intros x Hx; apply H; right; exact Hx.
Qed.

Lemma root_values_ok g fields :
  (forall nf, In nf fields -> root_shape_ok g nf) ->
  exists fs, root_values fields = Some fs.
Proof.
  induction fields as [|[n entry] fields IH]; intros H; simpl; [eauto|].
  destruct (H (n, entry)) as [_ [f [Hf _]]]; [left; reflexivity|].
  simpl in Hf; subst entry.
  destruct IH as [fs Hfs]; [intros nf Hi; apply H; right; exact Hi|].
  rewrite Hfs; eexists; reflexivity.
Qed.

(** X1: after registration, [registered_type] is exactly the named part of
    [validated_type], in the same order: types are registered in the order
    they are first visited. *)
Theorem registered_follows_visit_order g root_fields :
  exists st, register_schema g root_fields = Some st /\
    registered_type st = filter (is_named g) (validated_type st).
Proof.
  destruct (register_schema_total g root_fields) as [st [E _]].
  exists st; split; [exact E|].
  unfold register_schema, register_fields_type in E.
  destruct (register_types_ok g _ _ _ _ E) as (_ & I & _); apply I; reflexivity.
Qed.

(** X2: after registration, no two entries of [validated_type] are [==],
    every entry is reachable from the root's fields, and every reachable
    annotation (wrappers, [NoneType] and plain classes included) is [in]
    [validated_type]. *)
Theorem validated_type_is_reachable_set g root_fields :
  exists st, register_schema g root_fields = Some st /\
    distinct (validated_type st) /\
    (forall t, In t (validated_type st) -> reach g (param_return_types root_fields) t) /\
    (forall t, reach g (param_return_types root_fields) t -> mem t (validated_type st) = true).
Proof.
  destruct (register_schema_total g root_fields) as [st [E _]].
  exists st; split; [exact E|].
  destruct (register_from_empty _ _ _ _ E) as (_ & Hn & Hs & Hc & _).
  split; [exact Hn|]; split; [exact Hs|].
  intros t Ht; apply mem_In_eq, Hc, Ht.
Qed.

(** X3: once the schema is built, registering any reachable types again
    (the root's fields among them) changes neither list. *)
Theorem reregistration_is_noop g root_fields :
  exists st, register_schema g root_fields = Some st /\
    forall fuel ts, (forall t, In t ts -> reach g (param_return_types root_fields) t) ->
      register_types (S fuel) g ts st = Some st.
Proof.
  destruct (register_schema_total g root_fields) as [st [E _]].
  exists st; split; [exact E|].
  destruct (register_from_empty _ _ _ _ E) as (_ & _ & _ & Hc & _).
  intros fuel ts Hts; apply loop_all_visited.
  intros t Ht; apply mem_In_eq, Hc, Hts, Ht.
Qed.

(** X4: from a state whose registry is the named part of its visited list,
    [register_types] only appends: both lists keep their old contents as a
    prefix, the registry grows by the named part of the newly visited
    types, and every given type ends up [in] [validated_type]. *)
Theorem registration_appends g fuel ts st st' :
  Inv g st -> register_types fuel g ts st = Some st' ->
  exists l, validated_type st' = validated_type st ++ l /\
    registered_type st' = registered_type st ++ filter (is_named g) l /\
    (forall t, In t ts -> mem t (validated_type st') = true).
Proof.
  intros Hi E.
  destruct (register_types_ok g _ _ _ _ E) as ([l Hl] & I & _ & C & _).
  exists l; split; [exact Hl|]; split; [|intros t Ht; apply mem_In_eq, C, Ht].
  rewrite (I Hi), Hl, filter_app, Hi; reflexivity.
Qed.

(** X5: when the first root field is declared [Optional[X]] (its
    [Union] lists [X] first) with [X] a named type, [X] is the first entry
    of [registered_type]. *)
Theorem root_type_registered_first g n f rest q args :
  ftype f = TUnionOf (TClass q :: args) -> is_named g (TClass q) = true ->
  exists st, register_schema g ((n, f) :: rest) = Some st /\
    hd_error (registered_type st) = Some (TClass q).
Proof.
  intros Hf Hq.
  destruct (register_schema_total g ((n, f) :: rest)) as [st [E _]].
  exists st; split; [exact E|].
  set (p := ftype f).
  assert (Hfr : exists tl, param_return_types ((n, f) :: rest) = p :: tl)
    by (unfold p; destruct f; eexists; reflexivity).
  destruct Hfr as [tl Htl].
  unfold register_schema, register_fields_type in E; rewrite Htl in E.
  pose proof E as Eall.
  destruct (fuel_bound g (p :: tl)) as [|F1]; [discriminate|].
  cbn [register_types] in E; rewrite loop_cons_fresh in E by reflexivity.
  destruct (visit (register_types F1 g) g p (mark_validated p empty_state))
    as [s0|] eqn:V0; [|discriminate].
  apply (loop_ok g _ (register_types_ok g F1)) in E as (P0 & _).
  unfold p in V0; rewrite Hf in V0; cbn [visit type_args] in V0.
  destruct F1 as [|F2]; [discriminate|].
  cbn [register_types] in V0; rewrite loop_cons_fresh in V0 by reflexivity.
  destruct (visit (register_types F2 g) g (TClass q)
              (mark_validated (TClass q) (mark_validated (TUnionOf (TClass q :: args)) empty_state)))
    as [s1|] eqn:V1; [|discriminate].
  apply (visit_ok g _ _ _ _ (register_types_ok g F2)) in V1 as (P1 & _);
    [|simpl; intros [u [[<-|[]] H]]; discriminate H].
  apply (loop_ok g _ (register_types_ok g F2)) in V0 as (P2 & _).
  destruct (prefix_trans _ _ _ (prefix_trans _ _ _ P1 P2) P0) as [l Hl].
  destruct (register_types_ok g _ _ _ _ Eall) as (_ & I & _).
  rewrite (I eq_refl), Hl; cbn - [is_named].
  change (is_named g (TUnionOf (TClass q :: args))) with false; rewrite Hq; reflexivity.
Qed.

(** X6: [SchemaType.__new__] fails with a validation error exactly when
    [validate] raises one; when [validate] passes, construction always
    succeeds and the returned registry holds, without duplicates, the named
    types reachable from the root's fields. *)
Theorem schema_new_validation g fields object_validate :
  (forall e, schema_new g fields object_validate = inl (SchemaInvalid e) <->
             validate g fields object_validate = Some e) /\
  (validate g fields object_validate = None ->
   exists fs st, root_values fields = Some fs /\
     schema_new g fields object_validate = inr st /\
     NoDup (registered_type st) /\
     forall t, In t (registered_type st) <->
               reach g (param_return_types fs) t /\ is_named g t = true).
Proof.
  split.
  - intros e; unfold schema_new.
    destruct (validate g fields object_validate) as [e'|]; [split; congruence|].
    destruct (root_values fields) as [fs|]; [|split; congruence].
    destruct (register_schema g fs); split; congruence.
  - intros Hv.
    assert (Hc : check_root_fields g fields = None).
    { unfold validate in Hv; destruct (check_root_fields g fields); congruence. }
    pose proof (proj1 (check_root_fields_ok g fields) Hc) as Hall.
    destruct (root_values_ok g fields Hall) as [fs Hfs].
    destruct (register_schema_total g fs) as [st [E _]].
    exists fs, st; split; [exact Hfs|]; split.
    + unfold schema_new; rewrite Hv, Hfs, E; reflexivity.
    + destruct (register_from_empty _ _ _ _ E) as (Hn & _ & _ & _ & Hr); split; assumption.
Qed.

(** X7: [validate] is fail-fast in declaration order: the error raised is
    the one of the first root field that breaks the root shape, whatever
    the later fields are. *)
Theorem validate_first_failing_field g pre nf post object_validate :
  (forall x, In x pre -> root_shape_ok g x) -> ~ root_shape_ok g nf ->
  exists e, check_root_field g nf = Some e /\
    validate g (pre ++ nf :: post) object_validate = Some e.
Proof.
  intros Hpre Hnf.
  destruct (check_root_field g nf) as [e|] eqn:E;
    [|exfalso; apply Hnf, check_root_field_ok, E].
  exists e; split; [reflexivity|].
  unfold validate.
  assert (H : check_root_fields g (pre ++ nf :: post) = Some e).
  { induction pre as [|x pre IH]; simpl; [rewrite E; reflexivity|].
    rewrite (proj2 (check_root_field_ok g x)) by (apply Hpre; left; reflexivity).
    apply IH; intros y Hy; apply Hpre; right; exact Hy. }
  rewrite H; reflexivity.
Qed.

(** Instance of X4 on [g1]: after [Optional[Color]], registering
    [Union[None, Color]] (skipped, being [==]) and [Post]. *)
Lemma registration_appends_witness :
  exists l, validated_type st_color_post = validated_type st_color ++ l /\
    registered_type st_color_post = registered_type st_color ++ filter (is_named g1) l /\
    (forall t, In t [TUnionOf [TNone; TClass 4]; TClass 3] ->
               mem t (validated_type st_color_post) = true).
Proof.
  apply (registration_appends g1 10 [TUnionOf [TNone; TClass 4]; TClass 3] st_color st_color_post).
  - reflexivity.
  - vm_compute; reflexivity.
Defined.

(** Instance of X5 on [g1]: [query: Optional[Query]] registers [Query] first. *)
Lemma root_type_registered_first_witness :
  exists st, register_schema g1 [("query"%string, Field (TUnionOf [TClass 0; TNone]))] = Some st /\
    hd_error (registered_type st) = Some (TClass 0).
Proof.
  apply (root_type_registered_first g1 "query"%string (Field (TUnionOf [TClass 0; TNone]))
           [] 0 [TNone]); reflexivity.
Defined.

(** Instance of X7: [query] is fine, [mutation: Union[Post, User, None]] is
    not optional (three arguments), and a later non-[Field] value is never
    looked at. *)
Lemma validate_first_failing_field_witness :
  exists e, check_root_field g1 ("mutation"%string,
                                 RootField (Field (TUnionOf [TClass 3; TClass 1; TNone]))) = Some e /\
    validate g1 ([("query"%string, RootField (Field (TUnionOf [TClass 0; TNone])))]
                 ++ ("mutation"%string, RootField (Field (TUnionOf [TClass 3; TClass 1; TNone])))
                 :: [("extra"%string, RootOther)]) None = Some e.
Proof.
  apply (validate_first_failing_field g1
           [("query"%string, RootField (Field (TUnionOf [TClass 0; TNone])))]
           ("mutation"%string, RootField (Field (TUnionOf [TClass 3; TClass 1; TNone])))
           [("extra"%string, RootOther)] None).
  - intros x [<-|[]]; apply check_root_field_ok; reflexivity.
  - intros H; apply check_root_field_ok in H; vm_compute in H; discriminate H.
Defined.

End RegistryFacts.

(** ** Further properties of [execute] *)

Module ExecutionFacts.

Section Facts.

Context {selection exn value parse_error request variables : Type}.
Variable parse : string -> list (@definition selection) + parse_error.
Variable instantiate : ty -> value.
Variable resolve : value -> list selection -> list exn -> @resolution exn value.
Variable encode : @envelope exn value -> string.

Lemma execute_loop_context fields document defs (req : request) (vars : variables) :
  snd (execute_loop (parse_error:=parse_error) instantiate resolve encode
         fields document defs req vars) = [] \/
  exists r, execute_loop (parse_error:=parse_error) instantiate resolve encode
              fields document defs req vars
            = (Return (Some r), [ContextSet (Context document req vars); ContextReset]).
Proof.
  induction defs as [|d defs IH]; simpl; [left; reflexivity|].
  destruct d as [op sels|]; [|exact IH].
  destruct (is_query_or_mutation op); [|exact IH].
  unfold run_operation.
  destruct (FIELD_MAP op) as [name|]; [|left; reflexivity].
  destruct (dict_get name fields) as [entry|]; [|left; reflexivity].
  destruct (root_class entry) as [e|a]; [left; reflexivity|].
  right; destruct (resolve (instantiate a) sels []); eexists; reflexivity.
Qed.

(** X8: when [__resolve__] returns or raises an [Exception] (the cases
    [resolution] covers), [execute] sets the context variable at most once,
    and only when it returns an encoded envelope; it then resets it before
    returning, and the context holds the whole parsed document, the request
    and the variables.  When [execute] raises one of its own errors (syntax,
    missing root field, [__args__[0]]) or returns [None], the context
    variable was never touched. *)
Theorem execute_context_discipline fields query (vars : variables) (req : request) :
  snd (execute parse instantiate resolve encode fields query vars req) = [] \/
  exists document r, parse query = inl document /\
    execute parse instantiate resolve encode fields query vars req
    = (Return (Some r), [ContextSet (Context document req vars); ContextReset]).
Proof.
  unfold execute; destruct (parse query) as [document|pe]; [|left; reflexivity].
  destruct (execute_loop_context fields document document req vars) as [H|[r H]];
    [left; exact H|right; exists document, r; split; [reflexivity|exact H]].
Qed.

End Facts.

End ExecutionFacts.

Module RegistrarTests.
Example reg1 :
  option_map registered_type (register_schema g1 root1)
  = Some [TClass 0; TClass 1; TClass 4; TClass 2; TClass 3].
Proof. vm_compute. reflexivity. Qed.

(** [Union[None, Color]] is skipped after [Optional[Color]]. *)
Example reg3 :
  option_map validated_type (register_schema g3 [("query"%string, Field (TUnionOf [TClass 0; TNone]))])
  = Some [TUnionOf [TClass 0; TNone]; TClass 0; TUnionOf [TClass 1; TNone]; TClass 1; TNone].
Proof. vm_compute. reflexivity. Qed.

Example reg2 :
  option_map registered_type (register_schema g2 root2) = Some [TClass 0; TClass 1].
Proof. vm_compute. reflexivity. Qed.

(** A root with [query] only passes the root-shape checks. *)
Example validate_query_only :
  validate g1 [("query"%string, RootField (Field (TUnionOf [TClass 0; TNone])))] None = None.
Proof. vm_compute. reflexivity. Qed.

Example validate_bad_name :
  validate g1 [("subscription"%string, RootField (Field (TUnionOf [TClass 0; TNone])))] None
  = Some (InvalidRootName "subscription"%string).
Proof. vm_compute. reflexivity. Qed.

(** [Union[Query, User, None]] is not optional: it has three arguments. *)
Example validate_three_args :
  validate g1 [("query"%string, RootField (Field (TUnionOf [TClass 0; TClass 1; TNone])))] None
  = Some RootNotOptional.
Proof. vm_compute. reflexivity. Qed.

Example validate_not_optional :
  validate g1 [("query"%string, RootField (Field (TClass 0)))] None = Some RootNotOptional.
Proof. vm_compute. reflexivity. Qed.
End RegistrarTests.
